(** * js-metrics-plus: sampling and statistics core

    A shallow embedding of [src/src/sample.ts] (statistics helpers,
    [UniformSample], [ExpDecaySample]), of [StandardEWMA] and of the
    [StandardMeter] / [StandardTimer] composition.

    Modelling conventions.
    - A JS [number] is modelled by an exact rational [Q]; values fed to
      samples are integer-valued numbers ([Z]).  No claim below depends
      on IEEE rounding.
    - [Math.random()] is an explicit argument [rnd] with [0 <= rnd < 1];
      [Date.now()] / [new Date()] is an explicit argument [now].
    - Arrays that other code can reach (the array returned by [values()],
      the sample's own [_values]) live in a store [gmap loc (list Z)]. *)

From stdpp Require Import base gmap list.
From Stdlib Require Import ZArith QArith Qround Lia Lqa.
From Stdlib Require String Ascii.
From Stdlib Require Import Reals Qreals.

Open Scope Z_scope.

(** ** JS values produced by the statistics helpers *)

(** A numeric JS result: a number, or [NaN] (what arithmetic on
    [undefined] yields, e.g. [vals[1.5] + ...]). *)
Inductive num : Type :=
| Num (q : Q)
| NaN.

(** ** [Number.prototype.toString] on integer-valued numbers *)

Definition digit_char (d : Z) : Ascii.ascii :=
  Ascii.ascii_of_nat (48 + Z.to_nat d).

(** Decimal digits of [n >= 0]; [fuel] bounds the number of digits. *)
Fixpoint digits_rev (fuel : nat) (n : Z) : list Ascii.ascii :=
  match fuel with
  | O => []
  | S f =>
      if n <? 10 then [digit_char n]
      else digit_char (n mod 10) :: digits_rev f (n / 10)
  end.

Fixpoint string_of_chars (cs : list Ascii.ascii) : String.string :=
  match cs with
  | [] => String.EmptyString
  | c :: cs' => String.String c (string_of_chars cs')
  end.

Definition nat_digits (n : Z) : String.string :=
  string_of_chars (rev (digits_rev (S (Z.to_nat (Z.log2 (Z.max 1 n)))) n)).

(** [String(n)] for an integer [n]. *)
Definition js_int_to_string (n : Z) : String.string :=
  if n <? 0 then String.String (Ascii.ascii_of_nat 45) (nat_digits (- n)) else nat_digits n.

(** ** [Array.prototype.sort()] with no comparator

    Elements are compared by their string forms, code unit by code unit;
    the sort is stable.  Insertion sort realises it (distinct integers have
    distinct string forms, so every stable sort gives this result). *)

Definition js_default_le (a b : Z) : bool :=
  match String.compare (js_int_to_string a) (js_int_to_string b) with
  | Gt => false
  | _ => true
  end.

Fixpoint insert_by (le : Z -> Z -> bool) (x : Z) (l : list Z) : list Z :=
  match l with
  | [] => [x]
  | y :: l' => if le x y then x :: y :: l' else y :: insert_by le x l'
  end.

Fixpoint sort_by (le : Z -> Z -> bool) (l : list Z) : list Z :=
  match l with
  | [] => []
  | x :: l' => insert_by le x (sort_by le l')
  end.

Definition js_sort (l : list Z) : list Z := sort_by js_default_le l.

(** ** Array indexing with a number

    [vals[q]] is an element only when [q] is a non-negative integer below
    the length; any other key reads a missing property: [undefined]. *)
Definition js_index (vals : list Z) (q : Q) : option Z :=
  let q' := Qred q in
  if (Zpos (Qden q') =? 1) && (0 <=? Qnum q') then
    nth_error vals (Z.to_nat (Qnum q'))
  else None.

(** ** Statistics helpers (sample.ts, lines 399-486) *)

Definition MIN_SAFE_INTEGER : Z := - (2 ^ 53 - 1).
Definition MAX_SAFE_INTEGER : Z := 2 ^ 53 - 1.

Definition sampleMax (vals : list Z) : Z :=
  match vals with
  | [] => 0
  | _ => fold_left (fun m v => if m <? v then v else m) vals MIN_SAFE_INTEGER
  end.

Definition sampleMin (vals : list Z) : Z :=
  match vals with
  | [] => 0
  | _ => fold_left (fun m v => if m >? v then v else m) vals MAX_SAFE_INTEGER
  end.

Definition sampleSum (vals : list Z) : Q :=
  fold_left (fun s v => (s + inject_Z v)%Q) vals 0%Q.

Definition sampleMean (vals : list Z) : Q :=
  match vals with
  | [] => 0%Q
  | _ => (sampleSum vals / inject_Z (Z.of_nat (length vals)))%Q
  end.

Definition sampleVariance (vals : list Z) : Q :=
  match vals with
  | [] => 0%Q
  | _ =>
      let m := sampleMean vals in
      let sum := fold_left (fun s v => let d := (inject_Z v - m)%Q in (s + d * d)%Q)
                   vals 0%Q in
      (sum / inject_Z (Z.of_nat (length vals)))%Q
  end.

(** [Math.sqrt] is the real square root. *)
Definition sampleStdDev (vals : list Z) : R :=
  sqrt (Q2R (sampleVariance vals)).

(** One score of the loop of [samplePercentiles], over the already sorted
    [vals] of length [len > 0]. *)
Definition percentile_score (vals : list Z) (p : Q) : num :=
  let len := Z.of_nat (length vals) in
  let pos := (p * inject_Z (len + 1))%Q in
  if Qlt_le_dec pos 1 then
    match js_index vals 0 with Some v => Num (inject_Z v) | None => NaN end
  else if Qlt_le_dec pos (inject_Z len) then
    match js_index vals (pos - 1)%Q, js_index vals pos with
    | Some lower, Some upper =>
        Num (inject_Z lower + (pos - inject_Z (Qfloor pos)) * inject_Z (upper - lower))%Q
    | _, _ => NaN
    end
  else
    match js_index vals (inject_Z (len - 1)) with
    | Some v => Num (inject_Z v) | None => NaN
    end.

(** [samplePercentiles vals ps] returns the scores and the array [vals]
    after the call: [vals.sort()] sorts the caller's array in place. *)
Definition samplePercentiles (vals : list Z) (ps : list Q) : list num * list Z :=
  match vals with
  | [] => (map (fun _ => Num 0) ps, vals)
  | _ => let sorted := js_sort vals in (map (percentile_score sorted) ps, sorted)
  end.

(** [samplePercentiles(vals, [p])[0]]. *)
Definition samplePercentile (vals : list Z) (p : Q) : num * list Z :=
  let '(scores, vals') := samplePercentiles vals [p] in
  (match scores with s :: _ => s | [] => NaN end, vals').

(** The percentile rule as the specification words it (§4.1): sort in
    ascending numeric order, [pos = p * (len+1)], 1-indexed interpolation
    between [V[floor(pos)-1]] and [V[floor(pos)]]. *)
Definition spec_percentile (vals : list Z) (p : Q) : Q :=
  let v := sort_by Z.leb vals in
  let len := Z.of_nat (List.length v) in
  let pos := (p * inject_Z (len + 1))%Q in
  let at_ k := inject_Z (nth (Z.to_nat k) v 0) in
  match vals with
  | [] => 0%Q
  | _ =>
      if Qlt_le_dec pos 1 then at_ 0
      else if Qlt_le_dec pos (inject_Z len) then
        let k := Qfloor pos in
        let k1 := (k - 1)%Z in
        (at_ k1 + (pos - inject_Z k) * (at_ k - at_ k1))%Q
      else at_ (len - 1)
  end.

(** ** UniformSample (sample.ts, lines 133-306) *)

Record UniformSample : Type := {
  reservoirSize : Z;
  _count : Z;
  _values : list Z
}.

Definition newUniformSample (r : Z) : UniformSample :=
  {| reservoirSize := r; _count := 0; _values := [] |}.

Definition us_size (s : UniformSample) : Z := Z.of_nat (List.length (_values s)).
Definition us_count (s : UniformSample) : Z := _count s.

Definition us_clear (s : UniformSample) : UniformSample :=
  {| reservoirSize := reservoirSize s; _count := 0; _values := [] |}.

(** [this._values[r] = i]: an index below the length overwrites the slot.
    ([r] is [floor(rnd * count) >= 0] for [rnd] in [[0,1)].) *)
Definition js_array_set (vals : list Z) (r : Z) (x : Z) : list Z :=
  if (0 <=? r) && (r <? Z.of_nat (List.length vals)) then <[Z.to_nat r := x]> vals
  else vals.

Definition us_update (rnd : Q) (i : Z) (s : UniformSample) : UniformSample :=
  let count := _count s + 1 in
  if us_size s <? reservoirSize s then
    {| reservoirSize := reservoirSize s; _count := count; _values := _values s ++ [i] |}
  else
    let r := Qfloor (rnd * inject_Z count) in
    if r <? Z.of_nat (List.length (_values s)) then
      {| reservoirSize := reservoirSize s; _count := count;
         _values := js_array_set (_values s) r i |}
    else {| reservoirSize := reservoirSize s; _count := count; _values := _values s |}.

(** A run of updates: the [k]-th input is paired with the [Math.random()]
    draw its call would make. *)
Fixpoint us_updates (s : UniformSample) (xs : list (Q * Z)) : UniformSample :=
  match xs with
  | [] => s
  | (rnd, i) :: xs' => us_updates (us_update rnd i s) xs'
  end.

Definition valid_rnd (rnd : Q) : Prop := (0 <= rnd)%Q /\ (rnd < 1)%Q.

(** ** ExpDecaySample (sample.ts, lines 319-397) *)

(** A priority key: [Math.exp(..) / f] is a finite real, or [Infinity]
    when [f = 0]. *)
Inductive key : Type :=
| KFin (r : R)
| KInf.

Record entry : Type := { ekey : key; evalue : Z }.

(** [Date] objects are shared by reference: [#t0] and [#t1] are indices
    into the store [dates] that holds each object's current time (ms). *)
Record ExpDecaySample : Type := {
  super : UniformSample;
  ed_reservoirSize : Z;
  ed_alpha : Q;
  t0 : nat;
  t1 : nat;
  dates : list Q;
  ed_values : list entry
}.

Definition rescaleThreshold : Q := 3600000.

Definition date_get (ds : list Q) (d : nat) : Q := default 0%Q (ds !! d).
Definition date_setTime (ds : list Q) (d : nat) (v : Q) : list Q := <[d := v]> ds.

(** [constructor(alpha, reservoirSize)] run at time [now]:
    [this.#t1 = this.#t0] makes both fields the same [Date] object, whose
    time [setTime] then moves one hour ahead. *)
Definition newExpDecaySample (alpha : Q) (r : Z) (now : Q) : ExpDecaySample :=
  let ds := [now] in
  let ds := date_setTime ds 0 (date_get ds 0 + rescaleThreshold)%Q in
  {| super := newUniformSample r; ed_reservoirSize := r; ed_alpha := alpha;
     t0 := 0; t1 := 0; dates := ds; ed_values := [] |}.

Definition ed_size (s : ExpDecaySample) : Z := us_size (super s).
Definition ed_count (s : ExpDecaySample) : Z := us_count (super s).

(** [Math.exp(elapsed*alpha) / f]. *)
Definition priority_key (elapsed alpha : Q) (f : Z) : key :=
  if f =? 0 then KInf else KFin (exp (Q2R (elapsed * alpha)) / IZR f)%R.

(** [values[i].key * Math.exp(-alpha * d / 1000)]. *)
Definition rescale_key (alpha d : Q) (k : key) : key :=
  match k with
  | KFin r => KFin (r * exp (Q2R (- alpha * d / 1000)))%R
  | KInf => KInf
  end.

(** The random divisor [f = Math.floor(Math.random() * this._count)]. *)
Definition ed_divisor (rnd : Q) (count : Z) : Z := Qfloor (rnd * inject_Z count).

Definition ed_update (now rnd : Q) (i : Z) (s : ExpDecaySample) : ExpDecaySample :=
  (* const t = new Date() *)
  let ds := dates s ++ [now] in
  let t := List.length (dates s) in
  (* this._count++ *)
  let sup := super s in
  let count := _count sup + 1 in
  (* if (this.size() === this.#reservoirSize) this._values.pop() *)
  let vals := if us_size sup =? ed_reservoirSize s then removelast (_values sup)
              else _values sup in
  let sup := {| reservoirSize := reservoirSize sup; _count := count; _values := vals |} in
  let f := ed_divisor rnd count in
  let elapsed := ((date_get ds t - date_get ds (t0 s)) / 1000)%Q in
  let evs := ed_values s ++ [{| ekey := priority_key elapsed (ed_alpha s) f; evalue := i |}] in
  if Qlt_le_dec (date_get ds (t1 s)) (date_get ds t) then
    (* rescale *)
    let old_t0 := t0 s in
    let new_t0 := t in
    let ds := date_setTime ds (t1 s) (date_get ds new_t0 + rescaleThreshold)%Q in
    let d := (date_get ds new_t0 - date_get ds old_t0)%Q in
    {| super := sup; ed_reservoirSize := ed_reservoirSize s; ed_alpha := ed_alpha s;
       t0 := new_t0; t1 := t1 s; dates := ds;
       ed_values := map (fun e => {| ekey := rescale_key (ed_alpha s) d (ekey e);
                                     evalue := evalue e |}) evs |}
  else
    {| super := sup; ed_reservoirSize := ed_reservoirSize s; ed_alpha := ed_alpha s;
       t0 := t0 s; t1 := t1 s; dates := ds; ed_values := evs |}.

(** A run of updates: each input with its call time and random draw. *)
Fixpoint ed_updates (s : ExpDecaySample) (xs : list (Q * Q * Z)) : ExpDecaySample :=
  match xs with
  | [] => s
  | (now, rnd, i) :: xs' => ed_updates (ed_update now rnd i s) xs'
  end.

(** The statistics [ExpDecaySample] inherits from [UniformSample]: they
    read the base class's [_values]. *)
Definition ed_max (s : ExpDecaySample) : Z := sampleMax (_values (super s)).
Definition ed_min (s : ExpDecaySample) : Z := sampleMin (_values (super s)).

(** The retained [(key, value)] entries. *)
Definition ed_entries (s : ExpDecaySample) : list entry := ed_values s.

(** ** StandardEWMA (ewma.ts) *)

(** [a < b] on numbers, as a boolean. *)
Definition Qltb (a b : Q) : bool := negb (Qle_bool b a).

Record EWMA : Type := {
  alpha : Q;
  period : Q;
  ts : Q;
  ewma : Q;
  sample : Q;
  init : bool
}.

(** [new StandardEWMA(alpha)] at time [now] (default period 5000 ms). *)
Definition newStandardEWMA (a : Q) (now : Q) : EWMA :=
  {| alpha := a; period := 5000; ts := now; ewma := 0; sample := 0; init := false |}.

Definition set_ewma (e : EWMA) (v : Q) : EWMA :=
  {| alpha := alpha e; period := period e; ts := ts e; ewma := v;
     sample := sample e; init := init e |}.

(** [this.#ewma = this.#sample / seconds; this.#ts += this.#period;
     this.#init = true; this.#sample = 0]: the first commitment. *)
Definition first_commit (e : EWMA) : EWMA :=
  let seconds := (period e / 1000)%Q in
  {| alpha := alpha e; period := period e; ts := (ts e + period e)%Q;
     ewma := (sample e / seconds)%Q; sample := 0; init := true |}.

(** [this.#ewma = alpha * (sample / seconds) + (1 - alpha) * ewma;
     this.#sample = 0; this.#ts += this.#period]. *)
Definition commit (e : EWMA) : EWMA :=
  let seconds := (period e / 1000)%Q in
  {| alpha := alpha e; period := period e; ts := (ts e + period e)%Q;
     ewma := (alpha e * (sample e / seconds) + (1 - alpha e) * ewma e)%Q;
     sample := 0; init := init e |}.

(** One turn of [while (periods >= 1) { ewma = (1-alpha)*ewma; ts += period }]. *)
Definition decay (e : EWMA) : EWMA :=
  {| alpha := alpha e; period := period e; ts := (ts e + period e)%Q;
     ewma := ((1 - alpha e) * ewma e)%Q; sample := sample e; init := init e |}.

(** The [while] loop; [fuel] bounds its turns. *)
Fixpoint decay_loop (fuel : nat) (e : EWMA) (periods : Q) : EWMA * Q :=
  match fuel with
  | O => (e, periods)
  | S f =>
      if Qle_bool 1 periods then decay_loop f (decay e) (periods - 1)%Q
      else (e, periods)
  end.

(** The loop runs [floor(periods)] turns. *)
Definition run_decay_loop (e : EWMA) (periods : Q) : EWMA * Q :=
  decay_loop (Z.to_nat (Qfloor periods)) e periods.

(** Steps shared by [rate()] and [update()] once [periods >= 1]. *)
Definition advance (e : EWMA) (periods : Q) : EWMA :=
  let '(e, periods) := if negb (init e) then (first_commit e, (periods - 1)%Q)
                       else (e, periods) in
  let '(e, periods) := if Qle_bool 1 periods then (commit e, (periods - 1)%Q)
                       else (e, periods) in
  fst (run_decay_loop e periods).

(** [rate()] at time [now]: the returned rate and the state afterwards. *)
Definition ewma_rate (now : Q) (e : EWMA) : Q * EWMA :=
  let periods := ((now - ts e) / period e)%Q in
  if Qltb periods 1 || negb (init e) then (ewma e, e)
  else let e' := advance e periods in (ewma e', e').

Definition add_sample (e : EWMA) (i : Q) : EWMA :=
  {| alpha := alpha e; period := period e; ts := ts e; ewma := ewma e;
     sample := (sample e + i)%Q; init := init e |}.

(** [update(i)] at time [now]. *)
Definition ewma_update (now : Q) (i : Q) (e : EWMA) : EWMA :=
  let periods := ((now - ts e) / period e)%Q in
  if negb (init e) && Qltb periods 1 then set_ewma (add_sample e i) 0
  else if Qltb periods 1 then add_sample e i
  else add_sample (advance e periods) i.

(** ** StandardMeter (meter.ts) *)

(** [newEWMA1/5/15] use [alpha = 1 - exp(-5/60/k)]; the meter is built
    from the three constants. *)
Record Meter : Type := {
  m_count : Q;
  a1 : EWMA;
  a5 : EWMA;
  a15 : EWMA;
  start : Q
}.

Definition newStandardMeter (al1 al5 al15 : Q) (now : Q) : Meter :=
  {| m_count := 0; a1 := newStandardEWMA al1 now; a5 := newStandardEWMA al5 now;
     a15 := newStandardEWMA al15 now; start := now |}.

Definition meter_mark (now : Q) (i : Q) (m : Meter) : Meter :=
  {| m_count := (m_count m + i)%Q; a1 := ewma_update now i (a1 m);
     a5 := ewma_update now i (a5 m); a15 := ewma_update now i (a15 m);
     start := start m |}.

Definition meter_count (m : Meter) : Q := m_count m.

(** ** StandardTimer (timer.ts): a histogram over
    [new ExpDecaySample(0.015, 1028)] and a meter. *)
Record Timer : Type := {
  hist : ExpDecaySample;
  meter : Meter
}.

Definition newStandardTimer (al1 al5 al15 : Q) (now : Q) : Timer :=
  {| meter := newStandardMeter al1 al5 al15 now;
     hist := newExpDecaySample (15 # 1000) 1028 now |}.

(** [update(t)]: [this.#hist.update(t); this.#meter.mark(1)]. *)
Definition timer_update (now rnd : Q) (t : Z) (tm : Timer) : Timer :=
  {| hist := ed_update now rnd t (hist tm); meter := meter_mark now 1 (meter tm) |}.

Definition timer_count (tm : Timer) : Z := ed_count (hist tm).
Definition timer_max (tm : Timer) : Z := ed_max (hist tm).
Definition timer_min (tm : Timer) : Z := ed_min (hist tm).

(** ** Samples as JS objects over an array store

    The arrays a sample can hand out are objects on a store; the sample
    holds a reference [o_values] to its [_values] array.  [ExpDecaySample]
    extends [UniformSample]: its base part is the same object layout, and
    the methods it does not override run on that base part. *)

Abbreviation heap := (gmap positive (list Z)).

Record UniformObj : Type := {
  o_reservoirSize : Z;
  o_count : Z;
  o_values : positive
}.

Record ExpDecayObj : Type := {
  d_super : UniformObj;
  d_reservoirSize : Z;
  d_alpha : Q;
  d_t0 : nat;
  d_t1 : nat;
  d_dates : list Q;
  d_values : list entry
}.

Inductive SampleObj : Type :=
| SUniform (u : UniformObj)
| SExpDecay (d : ExpDecayObj).

Definition base_of (s : SampleObj) : UniformObj :=
  match s with SUniform u => u | SExpDecay d => d_super d end.

Definition values_loc (s : SampleObj) : positive := o_values (base_of s).

Definition arr_of (h : heap) (s : SampleObj) : list Z :=
  default [] (h !! values_loc s).

(** [values()]: [Object.assign([], this._values)] allocates a new array and
    copies the elements into it. *)
Definition obj_values (h : heap) (s : SampleObj) : positive * heap :=
  let l := fresh (dom h) in (l, <[l := arr_of h s]> h).

(** The read methods of [Sample]. *)
Inductive query : Type :=
| QCount | QSize | QMax | QMin | QMean | QSum | QVariance | QStdDev
| QPercentile (p : Q)
| QPercentiles (ps : list Q).

Inductive answer : Type :=
| AZ (z : Z)
| AQ (q : Q)
| AR (r : R)
| ANum (n : num)
| AScores (ns : list num).

(** A query's answer and the store after it: the percentile methods sort
    [this._values] in place. *)
Definition run_query (h : heap) (s : SampleObj) (q : query) : answer * heap :=
  let arr := arr_of h s in
  match q with
  | QCount => (AZ (o_count (base_of s)), h)
  | QSize => (AZ (Z.of_nat (List.length arr)), h)
  | QMax => (AZ (sampleMax arr), h)
  | QMin => (AZ (sampleMin arr), h)
  | QMean => (AQ (sampleMean arr), h)
  | QSum => (AQ (sampleSum arr), h)
  | QVariance => (AQ (sampleVariance arr), h)
  | QStdDev => (AR (sampleStdDev arr), h)
  | QPercentile p =>
      let '(sc, arr') := samplePercentile arr p in (ANum sc, <[values_loc s := arr']> h)
  | QPercentiles ps =>
      let '(sc, arr') := samplePercentiles arr ps in (AScores sc, <[values_loc s := arr']> h)
  end.

(** * Properties *)

(** ** Statistics helpers *)

(** C5: on no retained values every statistics helper returns its zero
    value: min, max, mean, variance and stdDev are 0, and every requested
    percentile is 0. *)
Theorem empty_statistics_are_zero :
  sampleMin [] = 0 /\ sampleMax [] = 0 /\ sampleMean [] = 0%Q /\
  sampleVariance [] = 0%Q /\ sampleStdDev [] = 0%R /\
  (forall ps : list Q, fst (samplePercentiles [] ps) = repeat (Num 0) (List.length ps)) /\
  (forall p : Q, fst (samplePercentile [] p) = Num 0).
Proof.
  repeat split.
  - unfold sampleStdDev, sampleVariance, Q2R; simpl.
    rewrite Rmult_0_l; exact sqrt_0.
  - intros ps; simpl; induction ps as [|p ps IH]; simpl; [reflexivity|].
    now rewrite IH.
Qed.

(** C1 (code vs. spec): [samplePercentiles] sorts with the default string
    order and reads [vals[pos-1]] at a fractional [pos]: on [[1;2]] at
    [p = 0.5] it yields [NaN] where the specified rule gives [1.5], and on
    [[9;10]] at [p = 0] it yields [10] where the rule gives [9]. *)
Theorem percentiles_diverge_from_rule :
  fst (samplePercentiles [1; 2] [1 # 2]) = [NaN] /\
  spec_percentile [1; 2] (1 # 2) = (3 # 2)%Q /\
  fst (samplePercentiles [9; 10] [0%Q]) = [Num 10] /\
  spec_percentile [9; 10] 0 = 9%Q.
Proof. repeat split; reflexivity. Qed.

(** ** UniformSample *)

Lemma length_js_array_set (vals : list Z) (r x : Z) :
  List.length (js_array_set vals r x) = List.length vals.
Proof.
  unfold js_array_set; destruct (_ && _); [apply length_insert | reflexivity].
Qed.

(** Below capacity, a run of updates appends its inputs in order. *)
Lemma us_updates_below_capacity (s : UniformSample) (xs : list (Q * Z)) :
  us_size s + Z.of_nat (List.length xs) <= reservoirSize s ->
  us_updates s xs =
    {| reservoirSize := reservoirSize s;
       _count := _count s + Z.of_nat (List.length xs);
       _values := _values s ++ map snd xs |}.
Proof.
  revert s; induction xs as [|[rnd i] xs IH]; intros s Hle;
    cbn [us_updates List.length map] in *.
  - destruct s; simpl; rewrite Z.add_0_r, app_nil_r; reflexivity.
  - rewrite Nat2Z.inj_succ in Hle; unfold us_update.
    assert (Hlt : us_size s < reservoirSize s) by lia.
    apply Z.ltb_lt in Hlt; rewrite Hlt.
    rewrite IH; unfold us_size in *; cbn [reservoirSize _count _values] in *.
    + rewrite <- app_assoc; f_equal; lia.
    + rewrite length_app; cbn [List.length]; lia.
Qed.

(** C6: at most [R] updates into a fresh [UniformSample] of reservoir
    size [R] retain every input: [size() = count() = N] and the retained
    values are exactly the inputs (as a list in arrival order, hence also
    as a set). *)
Theorem uniform_under_capacity (r : Z) (xs : list (Q * Z)) :
  Z.of_nat (List.length xs) <= r ->
  let s := us_updates (newUniformSample r) xs in
  us_size s = Z.of_nat (List.length xs) /\
  us_count s = Z.of_nat (List.length xs) /\
  _values s = map snd xs /\
  (forall x, In x (_values s) <-> In x (map snd xs)).
Proof.
  intros Hle s; subst s.
  rewrite us_updates_below_capacity by (unfold us_size; simpl; lia).
  unfold us_size, us_count; simpl.
  rewrite length_map; repeat split; auto.
Qed.

Lemma us_update_reservoir (rnd : Q) (i : Z) (s : UniformSample) :
  reservoirSize (us_update rnd i s) = reservoirSize s /\
  _count (us_update rnd i s) = _count s + 1.
Proof.
  unfold us_update; destruct (_ <? _); [|destruct (_ <? _)]; split; reflexivity.
Qed.

(** At capacity an update replaces one slot or discards its value. *)
Lemma us_update_at_capacity (rnd : Q) (i : Z) (s : UniformSample) :
  reservoirSize s <= us_size s ->
  _values (us_update rnd i s) = _values s \/
  exists j, (j < List.length (_values s))%nat /\
            _values (us_update rnd i s) = <[j := i]> (_values s).
Proof.
  intros Hcap; unfold us_update.
  assert (Hn : (us_size s <? reservoirSize s) = false) by (apply Z.ltb_ge; lia).
  rewrite Hn; clear Hn.
  destruct (Qfloor _ <? _); cbn [_values]; [|left; reflexivity].
  unfold js_array_set.
  destruct ((0 <=? _) && _) eqn:Hin; [|left; reflexivity].
  right; exists (Z.to_nat (Qfloor (rnd * inject_Z (_count s + 1)))).
  apply andb_true_iff in Hin as [H0 H1].
  apply Z.leb_le in H0; apply Z.ltb_lt in H1.
  split; [lia | reflexivity].
Qed.

Lemma us_update_size (rnd : Q) (i : Z) (s : UniformSample) :
  us_size s <= reservoirSize s ->
  us_size (us_update rnd i s) = Z.min (reservoirSize s) (us_size s + 1).
Proof.
  intros Hle; unfold us_update.
  destruct (us_size s <? reservoirSize s) eqn:Hlt.
  - apply Z.ltb_lt in Hlt; unfold us_size in *; cbn [_values].
    rewrite length_app; cbn [List.length]; lia.
  - apply Z.ltb_ge in Hlt.
    destruct (Qfloor _ <? _); unfold us_size in *; cbn [_values];
      rewrite ?length_js_array_set; lia.
Qed.

Lemma us_updates_size (s : UniformSample) (xs : list (Q * Z)) :
  us_size s <= reservoirSize s ->
  reservoirSize (us_updates s xs) = reservoirSize s /\
  _count (us_updates s xs) = _count s + Z.of_nat (List.length xs) /\
  us_size (us_updates s xs) = Z.min (reservoirSize s) (us_size s + Z.of_nat (List.length xs)).
Proof.
  revert s; induction xs as [|[rnd i] xs IH]; intros s Hle;
    cbn [us_updates List.length].
  - lia.
  - rewrite Nat2Z.inj_succ.
    destruct (us_update_reservoir rnd i s) as [Hr Hc].
    pose proof (us_update_size rnd i s Hle) as Hs.
    destruct (IH (us_update rnd i s)) as (Hr' & Hc' & Hs'); [lia|].
    rewrite Hr', Hc', Hs', Hs, Hr, Hc; lia.
Qed.

(** C7: more than [R] updates into a fresh [UniformSample] of reservoir
    size [R] leave [size() = R] and [count() = N]; after every prefix of
    the run the retained length is at most [R], and an update made at
    length [R] either overwrites exactly one slot with its value or
    discards it. *)
Theorem uniform_over_capacity (r : Z) (xs : list (Q * Z)) :
  0 <= r -> r < Z.of_nat (List.length xs) ->
  let s0 := newUniformSample r in
  us_size (us_updates s0 xs) = r /\
  us_count (us_updates s0 xs) = Z.of_nat (List.length xs) /\
  (forall k, us_size (us_updates s0 (firstn k xs)) <= r) /\
  (forall k rnd i, nth_error xs k = Some (rnd, i) ->
     let s := us_updates s0 (firstn k xs) in
     us_size s = r ->
     _values (us_update rnd i s) = _values s \/
     exists j, (j < List.length (_values s))%nat /\
               _values (us_update rnd i s) = <[j := i]> (_values s)).
Proof.
  intros H0 Hlt s0.
  assert (Hs0 : us_size s0 <= reservoirSize s0) by (unfold us_size; simpl; lia).
  repeat split.
  - destruct (us_updates_size s0 xs Hs0) as (_ & _ & ->); unfold us_size; simpl; lia.
  - unfold us_count; destruct (us_updates_size s0 xs Hs0) as (_ & -> & _); simpl; lia.
  - intros k; destruct (us_updates_size s0 (firstn k xs) Hs0) as (_ & _ & ->).
    simpl; lia.
  - intros k rnd i _ s Hsz; subst s.
    apply us_update_at_capacity.
    destruct (us_updates_size s0 (firstn k xs) Hs0) as (-> & _ & _).
    simpl; lia.
Qed.

(** ** ExpDecaySample *)

Lemma ed_update_entries_length (now rnd : Q) (i : Z) (s : ExpDecaySample) :
  List.length (ed_entries (ed_update now rnd i s)) = S (List.length (ed_entries s)).
Proof.
  unfold ed_entries, ed_update.
  destruct (Qlt_le_dec _ _); cbn [ed_values];
    rewrite ?length_map, length_app; cbn [List.length]; lia.
Qed.

(** C2 (code vs. spec): every update appends one entry to [#values] and
    none is ever removed (the eviction pops the base class's [_values]):
    after [N] updates a fresh sample of any reservoir size holds [N]
    entries. *)
Theorem ed_entries_grow (a : Q) (r : Z) (now : Q) (xs : list (Q * Q * Z)) :
  List.length (ed_entries (ed_updates (newExpDecaySample a r now) xs)) = List.length xs.
Proof.
  assert (Hgen : forall s, List.length (ed_entries (ed_updates s xs)) =
                           (List.length (ed_entries s) + List.length xs)%nat).
  { induction xs as [|[[t rnd] i] xs IH]; intros s; cbn [ed_updates List.length].
    - lia.
    - rewrite IH, ed_update_entries_length; lia. }
  rewrite Hgen; reflexivity.
Qed.

Lemma Qfloor_below_one (x : Q) : (0 <= x)%Q -> (x < 1)%Q -> Qfloor x = 0.
Proof.
  intros H0 H1.
  pose proof (Qfloor_le x) as Hle.
  pose proof (Qfloor_resp_le 0 x H0) as Hge.
  assert (Hlt : (inject_Z (Qfloor x) < inject_Z 1)%Q) by (eapply Qle_lt_trans; eauto).
  rewrite <- Zlt_Qlt in Hlt.
  change (Qfloor 0) with 0 in Hge; lia.
Qed.

(** C8 (code vs. spec): the divisor [Math.floor(Math.random() * count)]
    is [0] on the first update ([count = 1]) for every draw, so the first
    entry of a fresh sample gets an infinite priority key. *)
Theorem ed_first_key_infinite (rnd : Q) (a : Q) (r : Z) (now t : Q) (i : Z) :
  valid_rnd rnd ->
  ed_divisor rnd 1 = 0 /\
  map ekey (ed_entries (ed_update t rnd i (newExpDecaySample a r now))) = [KInf].
Proof.
  intros [H0 H1].
  assert (Hf : ed_divisor rnd 1 = 0).
  { unfold ed_divisor; apply Qfloor_below_one; rewrite Qmult_1_r; assumption. }
  split; [exact Hf|].
  unfold ed_entries, ed_update; cbn [super _count newExpDecaySample newUniformSample].
  replace (0 + 1) with 1 by reflexivity; rewrite Hf.
  destruct (Qlt_le_dec _ _); reflexivity.
Qed.

(** ** StandardTimer *)

(** C4 (code vs. spec): after one [update(100)] on a fresh timer,
    [count() = 1] and the meter counts one event, but [max()] and [min()]
    are [0]: they read the base class's [_values], which
    [ExpDecaySample.update] never fills. *)
Theorem timer_single_update (al1 al5 al15 now t rnd : Q) :
  let tm := timer_update t rnd 100 (newStandardTimer al1 al5 al15 now) in
  timer_count tm = 1 /\ meter_count (meter tm) = 1%Q /\
  timer_max tm = 0 /\ timer_min tm = 0.
Proof.
  intros tm; subst tm.
  unfold timer_count, timer_max, timer_min, ed_count, ed_max, ed_min, us_count,
    timer_update, ed_update; cbn [hist meter newStandardTimer].
  destruct (Qlt_le_dec _ _); repeat split; reflexivity.
Qed.

(** ** StandardEWMA *)

(** C3 (code vs. spec): [rate()] returns the stored rate as long as the
    EWMA is not initialised, and only [update()] initialises it.  After
    [update(3)] in the first period, [rate()] one and two periods later
    returns [0]; the same marks followed by an [update] at the boundary
    do give [3/5]. *)
Theorem rate_alone_never_commits (a : Q) :
  let e1 := ewma_update 1000 3 (newStandardEWMA a 0) in
  let '(v1, e2) := ewma_rate 5000 e1 in
  let '(v2, _) := ewma_rate 10000 e2 in
  v1 = 0%Q /\ v2 = 0%Q /\
  (fst (ewma_rate 5000 (ewma_update 5000 0 e1)) == 3 # 5)%Q.
Proof. vm_compute; repeat split; reflexivity. Qed.

Lemma Qltb_true (a b : Q) : Qltb a b = true <-> (a < b)%Q.
Proof.
  unfold Qltb; rewrite negb_true_iff; split; intros H.
  - apply Qnot_le_lt; intros Hle; apply Qle_bool_iff in Hle; congruence.
  - destruct (Qle_bool b a) eqn:E; [|reflexivity].
    apply Qle_bool_iff in E; exfalso; apply (Qlt_not_le a b); assumption.
Qed.

(** The number of periods still to commit at [now]. *)
Definition pending (now : Q) (e : EWMA) : Q := ((now - ts e) / period e)%Q.

Lemma pending_step (now : Q) (e : EWMA) (p : Q) :
  ~ (period e == 0)%Q -> (p == pending now e)%Q ->
  forall e', period e' = period e -> ts e' = (ts e + period e)%Q ->
  (p - 1 == pending now e')%Q.
Proof.
  intros Hp Hinv e' Hper Hts; unfold pending in *.
  rewrite Hper, Hts, Hinv; field; assumption.
Qed.

Lemma decay_loop_spec (now : Q) (n : nat) (e : EWMA) (p : Q) :
  ~ (period e == 0)%Q -> (p == pending now e)%Q ->
  (p < inject_Z (Z.of_nat n) + 1)%Q ->
  let '(e', p') := decay_loop n e p in
  (p' < 1)%Q /\ (p' == pending now e')%Q /\
  period e' = period e /\ init e' = init e.
Proof.
  revert e p; induction n as [|n IH]; intros e p Hp Hinv Hlt; cbn [decay_loop].
  - repeat split; auto; simpl in Hlt; lra.
  - destruct (Qle_bool 1 p) eqn:E.
    + apply Qle_bool_iff in E.
      assert (Hinv' : (p - 1 == pending now (decay e))%Q)
        by (apply (pending_step now e p Hp Hinv); reflexivity).
      assert (Hlt' : (p - 1 < inject_Z (Z.of_nat n) + 1)%Q).
      { rewrite Nat2Z.inj_succ, <- Z.add_1_r, inject_Z_plus in Hlt.
        change (inject_Z 1) with 1%Q in Hlt; lra. }
      specialize (IH (decay e) (p - 1)%Q Hp Hinv' Hlt').
      destruct (decay_loop n (decay e) (p - 1)) as [e' p'].
      destruct IH as (H1 & H2 & H3 & H4); auto.
    + repeat split; auto.
      apply Qnot_le_lt; intros Hle; apply Qle_bool_iff in Hle; congruence.
Qed.

Lemma run_decay_loop_spec (now : Q) (e : EWMA) (p : Q) :
  ~ (period e == 0)%Q -> (p == pending now e)%Q -> (0 <= p)%Q ->
  let '(e', p') := run_decay_loop e p in
  (p' < 1)%Q /\ (p' == pending now e')%Q /\
  period e' = period e /\ init e' = init e.
Proof.
  intros Hp Hinv H0; unfold run_decay_loop.
  apply decay_loop_spec; auto.
  pose proof (Qfloor_resp_le 0 p H0) as Hge; change (Qfloor 0) with 0 in Hge.
  rewrite Z2Nat.id by lia.
  pose proof (Qlt_floor p) as Hf; rewrite inject_Z_plus in Hf; exact Hf.
Qed.

(** Once initialised, [advance] commits every full period that has
    elapsed by [now]. *)
Lemma advance_spec (now : Q) (e : EWMA) (p : Q) :
  ~ (period e == 0)%Q -> init e = true ->
  (p == pending now e)%Q -> (1 <= p)%Q ->
  (pending now (advance e p) < 1)%Q /\ init (advance e p) = true.
Proof.
  intros Hp Hi Hinv H1; unfold advance; rewrite Hi; cbn [negb].
  assert (E : Qle_bool 1 p = true) by (apply Qle_bool_iff; assumption).
  rewrite E.
  assert (Hinv' : (p - 1 == pending now (commit e))%Q)
    by (apply (pending_step now e p Hp Hinv); reflexivity).
  assert (Hp' : ~ (period (commit e) == 0)%Q) by exact Hp.
  assert (H0 : (0 <= p - 1)%Q) by lra.
  pose proof (run_decay_loop_spec now (commit e) (p - 1) Hp' Hinv' H0) as Hl.
  destruct (run_decay_loop (commit e) (p - 1)) as [e' p'].
  destruct Hl as (Hlt & Heq & _ & Hin); cbn [fst].
  split; [rewrite <- Heq; exact Hlt | rewrite Hin; exact Hi].
Qed.

(** C9: two [rate()] calls at the same instant return the same value, and
    the second leaves the state exactly as the first left it. *)
Theorem rate_twice_idempotent (now : Q) (e : EWMA) :
  ~ (period e == 0)%Q ->
  let '(v1, e1) := ewma_rate now e in
  let '(v2, e2) := ewma_rate now e1 in
  v1 = v2 /\ e2 = e1.
Proof.
  intros Hp; unfold ewma_rate at 1.
  destruct (Qltb ((now - ts e) / period e) 1 || negb (init e)) eqn:H.
  - unfold ewma_rate; rewrite H; split; reflexivity.
  - apply orb_false_iff in H as [Hlt Hi].
    apply negb_false_iff in Hi.
    assert (H1 : (1 <= (now - ts e) / period e)%Q).
    { apply Qnot_lt_le; intros Hc; apply Qltb_true in Hc; congruence. }
    destruct (advance_spec now e _ Hp Hi (Qeq_refl _) H1) as [Hpen Hi'].
    unfold ewma_rate.
    apply Qltb_true in Hpen; unfold pending in Hpen; rewrite Hpen.
    split; reflexivity.
Qed.

(** ** [values()] returns a copy *)

Lemma run_query_arr (h h' : heap) (s : SampleObj) (q : query) :
  h' !! values_loc s = h !! values_loc s ->
  fst (run_query h' s q) = fst (run_query h s q) /\
  snd (run_query h' s q) !! values_loc s = snd (run_query h s q) !! values_loc s.
Proof.
  intros Heq.
  assert (Harr : arr_of h' s = arr_of h s) by (unfold arr_of; rewrite Heq; reflexivity).
  destruct q; unfold run_query; try rewrite Harr; try (split; assumption || reflexivity).
  - destruct (samplePercentile (arr_of h s) p); cbn [fst snd].
    rewrite !lookup_insert_eq; split; reflexivity.
  - destruct (samplePercentiles (arr_of h s) ps); cbn [fst snd].
    rewrite !lookup_insert_eq; split; reflexivity.
Qed.

(** C10: for a uniform or exponentially-decaying sample whose [_values]
    array is on the store, [values()] returns a new array holding the same
    elements; whatever is then done to that array alone leaves the
    sample's [_values] and the answer of every statistics query (and the
    array each query leaves behind) as they were. *)
Theorem values_returns_copy (h : heap) (s : SampleObj) (arr : list Z) :
  h !! values_loc s = Some arr ->
  let '(l, h1) := obj_values h s in
  l <> values_loc s /\ h1 !! l = Some arr /\
  forall h2 : heap, (forall k, k <> l -> h2 !! k = h1 !! k) ->
    h2 !! values_loc s = Some arr /\
    forall q, fst (run_query h2 s q) = fst (run_query h s q) /\
              snd (run_query h2 s q) !! values_loc s = snd (run_query h s q) !! values_loc s.
Proof.
  intros Hs; unfold obj_values.
  set (l := fresh (dom h)).
  assert (Hne : l <> values_loc s).
  { intros E. apply (is_fresh (dom h)). fold l. rewrite E.
    apply elem_of_dom; rewrite Hs; eexists; reflexivity. }
  assert (Hl : arr_of h s = arr) by (unfold arr_of; rewrite Hs; reflexivity).
  split; [exact Hne|]; split.
  - rewrite lookup_insert_eq, Hl; reflexivity.
  - intros h2 Hh2.
    assert (Hkeep : h2 !! values_loc s = h !! values_loc s).
    { rewrite (Hh2 _ (not_eq_sym Hne)), lookup_insert_ne by exact Hne; reflexivity. }
    split; [rewrite Hkeep; exact Hs|].
    intros q; apply run_query_arr; exact Hkeep.
Qed.

(** * Witnesses: each theorem with a hypothesis, at a concrete input *)

Definition inputs2 : list (Q * Z) := [(0%Q, 5); (1 # 2, 6)].
Definition inputs4 : list (Q * Z) := [(0%Q, 5); (1 # 2, 6); (1 # 2, 7); (9 # 10, 8)].

Lemma uniform_under_capacity_witness :
  Z.of_nat (List.length inputs2) <= 3 /\
  (let s := us_updates (newUniformSample 3) inputs2 in
   us_size s = Z.of_nat (List.length inputs2) /\
   us_count s = Z.of_nat (List.length inputs2) /\
   _values s = map snd inputs2 /\
   (forall x, In x (_values s) <-> In x (map snd inputs2))).
Proof.
  split; [simpl; lia | apply (uniform_under_capacity 3 inputs2); simpl; lia].
Defined.

Lemma uniform_over_capacity_witness :
  0 <= 2 /\ 2 < Z.of_nat (List.length inputs4) /\
  (let s0 := newUniformSample 2 in
   us_size (us_updates s0 inputs4) = 2 /\
   us_count (us_updates s0 inputs4) = Z.of_nat (List.length inputs4) /\
   (forall k, us_size (us_updates s0 (firstn k inputs4)) <= 2) /\
   (forall k rnd i, nth_error inputs4 k = Some (rnd, i) ->
      let s := us_updates s0 (firstn k inputs4) in
      us_size s = 2 ->
      _values (us_update rnd i s) = _values s \/
      exists j, (j < List.length (_values s))%nat /\
                _values (us_update rnd i s) = <[j := i]> (_values s))).
Proof.
  split; [lia|]; split; [simpl; lia|].
  apply (uniform_over_capacity 2 inputs4); simpl; lia.
Defined.

Lemma ed_first_key_infinite_witness :
  valid_rnd (1 # 2) /\
  ed_divisor (1 # 2) 1 = 0 /\
  map ekey (ed_entries (ed_update 10 (1 # 2) 4 (newExpDecaySample (15 # 1000) 1028 0))) = [KInf].
Proof.
  assert (H : valid_rnd (1 # 2)) by (unfold valid_rnd; split; lra).
  split; [exact H | apply (ed_first_key_infinite (1 # 2) (15 # 1000) 1028 0 10 4 H)].
Defined.

Definition ewma_after_first_period : EWMA :=
  ewma_update 5000 3 (newStandardEWMA (2 # 25) 0).

Lemma rate_twice_idempotent_witness :
  ~ (period ewma_after_first_period == 0)%Q /\
  (let '(v1, e1) := ewma_rate 17000 ewma_after_first_period in
   let '(v2, e2) := ewma_rate 17000 e1 in
   v1 = v2 /\ e2 = e1).
Proof.
  assert (H : ~ (period ewma_after_first_period == 0)%Q) by (vm_compute; discriminate).
  split; [exact H | apply (rate_twice_idempotent 17000 ewma_after_first_period H)].
Defined.

Definition store1 : heap := {[ 1%positive := [3; 1; 2] ]}.
Definition sample1 : SampleObj :=
  SUniform {| o_reservoirSize := 3; o_count := 3; o_values := 1%positive |}.

Lemma values_returns_copy_witness :
  store1 !! values_loc sample1 = Some [3; 1; 2] /\
  (let '(l, h1) := obj_values store1 sample1 in
   l <> values_loc sample1 /\ h1 !! l = Some [3; 1; 2] /\
   forall h2 : heap, (forall k, k <> l -> h2 !! k = h1 !! k) ->
     h2 !! values_loc sample1 = Some [3; 1; 2] /\
     forall q, fst (run_query h2 sample1 q) = fst (run_query store1 sample1 q) /\
               snd (run_query h2 sample1 q) !! values_loc sample1 =
               snd (run_query store1 sample1 q) !! values_loc sample1).
Proof.
  assert (H : store1 !! values_loc sample1 = Some [3; 1; 2]) by reflexivity.
  split; [exact H | apply (values_returns_copy store1 sample1 [3; 1; 2] H)].
Defined.

(** * Further properties of the statistics helpers *)

Lemma fold_max_spec (vals : list Z) (m : Z) :
  let r := fold_left (fun m v => if m <? v then v else m) vals m in
  (r = m \/ In r vals) /\ m <= r /\ (forall v, In v vals -> v <= r).
Proof.
  revert m; induction vals as [|x vals IH]; intros m; cbn [fold_left].
  - repeat split; [left; reflexivity | lia | intros v []].
  - destruct (Z.ltb_spec m x) as [E|E];
      [destruct (IH x) as (H1 & H2 & H3) | destruct (IH m) as (H1 & H2 & H3)];
      cbv zeta in *; repeat split.
    + destruct H1 as [->|H1]; right; [left; reflexivity | right; exact H1].
    + lia.
    + intros v [<-|Hv]; [lia | apply H3; exact Hv].
    + destruct H1 as [->|H1]; [left; reflexivity | right; right; exact H1].
    + exact H2.
    + intros v [<-|Hv]; [lia | apply H3; exact Hv].
Qed.

Lemma fold_min_spec (vals : list Z) (m : Z) :
  let r := fold_left (fun m v => if m >? v then v else m) vals m in
  (r = m \/ In r vals) /\ r <= m /\ (forall v, In v vals -> r <= v).
Proof.
  revert m; induction vals as [|x vals IH]; intros m; cbn [fold_left].
  - repeat split; [left; reflexivity | lia | intros v []].
  - rewrite Z.gtb_ltb; destruct (Z.ltb_spec x m) as [E|E];
      [destruct (IH x) as (H1 & H2 & H3) | destruct (IH m) as (H1 & H2 & H3)];
      cbv zeta in *; repeat split.
    + destruct H1 as [->|H1]; right; [left; reflexivity | right; exact H1].
    + lia.
    + intros v [<-|Hv]; [lia | apply H3; exact Hv].
    + destruct H1 as [->|H1]; [left; reflexivity | right; right; exact H1].
    + exact H2.
    + intros v [<-|Hv]; [lia | apply H3; exact Hv].
Qed.

(** [sampleMax] of a non-empty array whose values are all at least
    [Number.MIN_SAFE_INTEGER] is its largest element. *)
Theorem sampleMax_is_maximum (vals : list Z) :
  vals <> [] -> (forall v, In v vals -> MIN_SAFE_INTEGER <= v) ->
  In (sampleMax vals) vals /\ (forall v, In v vals -> v <= sampleMax vals).
Proof.
  intros Hne Hge.
  assert (Hm : sampleMax vals =
               fold_left (fun m v => if m <? v then v else m) vals MIN_SAFE_INTEGER)
    by (destruct vals; [congruence | reflexivity]).
  rewrite Hm; destruct (fold_max_spec vals MIN_SAFE_INTEGER) as ([Heq|Hin] & _ & H3).
  - split; [|exact H3].
    destruct vals as [|x vals]; [congruence|].
    assert (x <= MIN_SAFE_INTEGER) by (rewrite <- Heq; apply H3; left; reflexivity).
    assert (MIN_SAFE_INTEGER <= x) by (apply Hge; left; reflexivity).
    rewrite Heq; left; lia.
  - split; assumption.
Qed.

(** [sampleMin] of a non-empty array whose values are all at most
    [Number.MAX_SAFE_INTEGER] is its smallest element. *)
Theorem sampleMin_is_minimum (vals : list Z) :
  vals <> [] -> (forall v, In v vals -> v <= MAX_SAFE_INTEGER) ->
  In (sampleMin vals) vals /\ (forall v, In v vals -> sampleMin vals <= v).
Proof.
  intros Hne Hle.
  assert (Hm : sampleMin vals =
               fold_left (fun m v => if m >? v then v else m) vals MAX_SAFE_INTEGER)
    by (destruct vals; [congruence | reflexivity]).
  rewrite Hm; destruct (fold_min_spec vals MAX_SAFE_INTEGER) as ([Heq|Hin] & _ & H3).
  - split; [|exact H3].
    destruct vals as [|x vals]; [congruence|].
    assert (MAX_SAFE_INTEGER <= x) by (rewrite <- Heq; apply H3; left; reflexivity).
    assert (x <= MAX_SAFE_INTEGER) by (apply Hle; left; reflexivity).
    rewrite Heq; left; lia.
  - split; assumption.
Qed.

(** When every value of a non-empty array lies below
    [Number.MIN_SAFE_INTEGER], [sampleMax] returns the seed
    [Number.MIN_SAFE_INTEGER], which is none of the values. *)
Theorem sampleMax_below_seed (vals : list Z) :
  vals <> [] -> (forall v, In v vals -> v < MIN_SAFE_INTEGER) ->
  sampleMax vals = MIN_SAFE_INTEGER /\ ~ In (sampleMax vals) vals.
Proof.
  intros Hne Hlt.
  assert (Hm : sampleMax vals =
               fold_left (fun m v => if m <? v then v else m) vals MIN_SAFE_INTEGER)
    by (destruct vals; [congruence | reflexivity]).
  destruct (fold_max_spec vals MIN_SAFE_INTEGER) as ([Heq|Hin] & H2 & _);
    rewrite Hm.
  - split; [exact Heq|]; rewrite Heq; intros Hin; specialize (Hlt _ Hin); lia.
  - specialize (Hlt _ Hin); lia.
Qed.

Lemma fold_sum_sq_nonneg (vals : list Z) (m s : Q) :
  (0 <= s)%Q ->
  (0 <= fold_left (fun s v => let d := (inject_Z v - m)%Q in (s + d * d)%Q) vals s)%Q.
Proof.
  revert s; induction vals as [|v vals IH]; intros s Hs; cbn [fold_left]; [exact Hs|].
  apply IH.
  set (d := (inject_Z v - m)%Q).
  assert (Hd : (0 <= d * d)%Q).
  { destruct (Qlt_le_dec d 0) as [Hn|Hp].
    - assert (E : (d * d == (- d) * (- d))%Q) by ring.
      rewrite E; apply Qmult_le_0_compat; lra.
    - apply Qmult_le_0_compat; assumption. }
  lra.
Qed.

(** [sampleVariance] is never negative, and [sampleStdDev] squared gives
    it back. *)
Theorem variance_nonneg_stddev_sq (vals : list Z) :
  (0 <= sampleVariance vals)%Q /\
  (sampleStdDev vals * sampleStdDev vals = Q2R (sampleVariance vals))%R.
Proof.
  assert (H : (0 <= sampleVariance vals)%Q).
  { destruct vals as [|x vals']; [apply Qle_refl|].
    unfold sampleVariance.
    set (l := x :: vals').
    apply Qle_shift_div_l.
    - change 0%Q with (inject_Z 0); rewrite <- Zlt_Qlt; simpl; lia.
    - rewrite Qmult_0_l; apply fold_sum_sq_nonneg, Qle_refl. }
  split; [exact H|].
  unfold sampleStdDev; apply sqrt_sqrt.
  pose proof (Qle_Rle _ _ H) as HR.
  replace (Q2R 0) with 0%R in HR by (unfold Q2R; simpl; ring).
  exact HR.
Qed.


Lemma insert_by_perm (le : Z -> Z -> bool) (x : Z) (l : list Z) :
  Permutation (insert_by le x l) (x :: l).
Proof.
  induction l as [|y l IH]; cbn [insert_by]; [reflexivity|].
  destruct (le x y); [reflexivity|].
  rewrite IH; apply perm_swap.
Qed.

Lemma sort_by_perm (le : Z -> Z -> bool) (l : list Z) : Permutation (sort_by le l) l.
Proof.
  induction l as [|x l IH]; cbn [sort_by]; [reflexivity|].
  rewrite insert_by_perm, IH; reflexivity.
Qed.

(** A percentile query reorders the sample's array in place but keeps
    exactly its values, with their multiplicities. *)
Theorem percentiles_keep_values (vals : list Z) (ps : list Q) :
  Permutation (snd (samplePercentiles vals ps)) vals.
Proof.
  destruct vals as [|x vals]; [reflexivity|].
  apply sort_by_perm.
Qed.

(** On a sample holding one value [v], every requested percentile is [v],
    whatever [p] is. *)
Theorem percentiles_singleton (v : Z) (ps : list Q) :
  fst (samplePercentiles [v] ps) = map (fun _ => Num (inject_Z v)) ps.
Proof.
  cbn [samplePercentiles fst js_sort sort_by insert_by].
  apply map_ext; intros p; unfold percentile_score.
  destruct (Qlt_le_dec _ 1); [reflexivity|].
  destruct (Qlt_le_dec _ _) as [Hc|]; [|reflexivity].
  exfalso; cbn in Hc; apply (Qlt_not_le _ _ Hc); assumption.
Qed.

(** * Further properties of the samples *)

Lemma in_list_insert (l : list Z) (j : nat) (i x : Z) :
  In x (<[j := i]> l) -> In x l \/ x = i.
Proof.
  revert j; induction l as [|y l IH]; intros j Hin; [destruct j; contradiction|].
  destruct j as [|j]; cbn in Hin.
  - destruct Hin as [<-|Hin]; [right; reflexivity | left; right; exact Hin].
  - destruct Hin as [<-|Hin]; [left; left; reflexivity|].
    destruct (IH j Hin) as [H|H]; [left; right; exact H | right; exact H].
Qed.

Lemma us_update_in (rnd : Q) (i x : Z) (s : UniformSample) :
  In x (_values (us_update rnd i s)) -> In x (_values s) \/ x = i.
Proof.
  unfold us_update; destruct (us_size s <? reservoirSize s); cbn [_values].
  - intros Hin; apply in_app_or in Hin as [H|[H|[]]]; [left; exact H | right; symmetry; exact H].
  - destruct (Qfloor _ <? _); cbn [_values]; [|left; assumption].
    unfold js_array_set; destruct (_ && _); [apply in_list_insert | left; assumption].
Qed.

(** Every value a [UniformSample] retains is one of the values it was
    updated with: replacement never invents a value. *)
Theorem uniform_values_from_inputs (r : Z) (xs : list (Q * Z)) (x : Z) :
  In x (_values (us_updates (newUniformSample r) xs)) -> In x (map snd xs).
Proof.
  assert (Hgen : forall s, In x (_values (us_updates s xs)) ->
                             In x (_values s) \/ In x (map snd xs)).
  { induction xs as [|[rnd i] xs IH]; intros s Hin; cbn [us_updates map] in *;
      [left; exact Hin|].
    destruct (IH _ Hin) as [H|H]; [|right; simpl; right; exact H].
    destruct (us_update_in rnd i x s H) as [H'|H'];
      [left; exact H' | right; simpl; left; symmetry; exact H']. }
  intros Hin; destruct (Hgen _ Hin) as [[]|H]; exact H.
Qed.

Lemma ed_update_values (now rnd : Q) (i : Z) (s : ExpDecaySample) :
  map evalue (ed_entries (ed_update now rnd i s)) = map evalue (ed_entries s) ++ [i].
Proof.
  unfold ed_entries, ed_update; destruct (Qlt_le_dec _ _); cbn [ed_values];
    rewrite ?map_map; cbn [evalue]; rewrite ?map_id; rewrite map_app; reflexivity.
Qed.

Lemma ed_update_super (now rnd : Q) (i : Z) (s : ExpDecaySample) :
  _values (super s) = [] ->
  _values (super (ed_update now rnd i s)) = [] /\
  _count (super (ed_update now rnd i s)) = _count (super s) + 1.
Proof.
  intros He; unfold ed_update; destruct (Qlt_le_dec _ _); cbn [super _values _count];
    rewrite He; destruct (_ =? _); split; reflexivity.
Qed.

Lemma ed_updates_super (s : ExpDecaySample) (xs : list (Q * Q * Z)) :
  _values (super s) = [] ->
  _values (super (ed_updates s xs)) = [] /\
  _count (super (ed_updates s xs)) = _count (super s) + Z.of_nat (List.length xs).
Proof.
  revert s; induction xs as [|[[t rnd] i] xs IH]; intros s He; cbn [ed_updates List.length].
  - split; [exact He | lia].
  - destruct (ed_update_super t rnd i s He) as [H1 H2].
    destruct (IH _ H1) as [H3 H4]; split; [exact H3 | rewrite H4, H2; lia].
Qed.

(** The entries of an [ExpDecaySample] keep every value it was updated
    with, in arrival order; rescaling changes only the keys. *)
Theorem ed_entry_values (a : Q) (r : Z) (now : Q) (xs : list (Q * Q * Z)) :
  map evalue (ed_entries (ed_updates (newExpDecaySample a r now) xs)) = map snd xs.
Proof.
  assert (Hgen : forall s, map evalue (ed_entries (ed_updates s xs)) =
                           map evalue (ed_entries s) ++ map snd xs).
  { induction xs as [|[[t rnd] i] xs IH]; intros s; cbn [ed_updates map].
    - rewrite app_nil_r; reflexivity.
    - rewrite IH, ed_update_values, <- app_assoc; reflexivity. }
  rewrite Hgen; reflexivity.
Qed.

(** After any run of [N] updates, an [ExpDecaySample] built by its
    constructor reports [count() = N] but [size() = 0], and its inherited
    [max()] and [min()] stay [0]. *)
Theorem ed_base_stays_empty (a : Q) (r : Z) (now : Q) (xs : list (Q * Q * Z)) :
  let s := ed_updates (newExpDecaySample a r now) xs in
  ed_count s = Z.of_nat (List.length xs) /\ ed_size s = 0 /\ ed_max s = 0 /\ ed_min s = 0.
Proof.
  intros s; subst s.
  destruct (ed_updates_super (newExpDecaySample a r now) xs eq_refl) as [H1 H2].
  unfold ed_count, ed_size, ed_max, ed_min, us_count, us_size.
  rewrite H1, H2; repeat split.
Qed.

(** [N] [update] calls on a [StandardTimer] count [N] events in its
    histogram and in its meter. *)
Fixpoint timer_updates (tm : Timer) (xs : list (Q * Q * Z)) : Timer :=
  match xs with
  | [] => tm
  | (now, rnd, t) :: xs' => timer_updates (timer_update now rnd t tm) xs'
  end.

Theorem timer_counts_updates (al1 al5 al15 now : Q) (xs : list (Q * Q * Z)) :
  let tm := timer_updates (newStandardTimer al1 al5 al15 now) xs in
  timer_count tm = Z.of_nat (List.length xs) /\
  (meter_count (meter tm) == inject_Z (Z.of_nat (List.length xs)))%Q.
Proof.
  assert (Hgen : forall tm, _values (super (hist tm)) = [] ->
    timer_count (timer_updates tm xs) = timer_count tm + Z.of_nat (List.length xs) /\
    (meter_count (meter (timer_updates tm xs)) ==
       meter_count (meter tm) + inject_Z (Z.of_nat (List.length xs)))%Q).
  { induction xs as [|[[t rnd] i] xs IH]; intros tm He; cbn [timer_updates List.length].
    - split; [lia | simpl; ring].
    - destruct (ed_update_super t rnd i (hist tm) He) as [H1 H2].
      destruct (IH (timer_update t rnd i tm) H1) as [H3 H4].
      rewrite H3, H4; split.
      + unfold timer_count, ed_count, us_count in *; cbn [hist timer_update] in *; lia.
      + rewrite Nat2Z.inj_succ, <- Z.add_1_r, inject_Z_plus.
        unfold meter_count; cbn [meter timer_update meter_mark m_count]; ring. }
  intros tm; subst tm.
  destruct (Hgen (newStandardTimer al1 al5 al15 now) eq_refl) as [H1 H2].
  rewrite H1, H2; split; [reflexivity | simpl; ring].
Qed.

(** * Further properties of [StandardEWMA] *)

(** [x ^ n] for a natural exponent. *)
Fixpoint Qpow_nat (x : Q) (n : nat) : Q :=
  match n with
  | O => 1%Q
  | S n' => (x * Qpow_nat x n')%Q
  end.

Lemma decay_loop_value (n : nat) (e : EWMA) (p : Q) :
  (inject_Z (Z.of_nat n) <= p)%Q ->
  let e' := fst (decay_loop n e p) in
  (ewma e' == Qpow_nat (1 - alpha e) n * ewma e)%Q /\
  alpha e' = alpha e /\ sample e' = sample e /\ init e' = init e.
Proof.
  revert e p; induction n as [|n IH]; intros e p Hle; cbn [decay_loop Qpow_nat].
  - cbn [fst]; repeat split; ring.
  - assert (H1 : Qle_bool 1 p = true).
    { apply Qle_bool_iff; rewrite Nat2Z.inj_succ, <- Z.add_1_r, inject_Z_plus in Hle.
      assert (0 <= inject_Z (Z.of_nat n))%Q
        by (change 0%Q with (inject_Z 0); rewrite <- Zle_Qle; lia).
      change (inject_Z 1) with 1%Q in Hle; lra. }
    rewrite H1.
    assert (Hle' : (inject_Z (Z.of_nat n) <= p - 1)%Q).
    { rewrite Nat2Z.inj_succ, <- Z.add_1_r, inject_Z_plus in Hle.
      change (inject_Z 1) with 1%Q in Hle; lra. }
    destruct (IH (decay e) (p - 1)%Q Hle') as (Hv & Ha & Hs & Hi).
    cbn [alpha sample init decay ewma] in *.
    repeat split; [rewrite Hv; ring | exact Ha | exact Hs | exact Hi].
Qed.

Lemma Qfloor_nat (k : nat) (p : Q) :
  (inject_Z (Z.of_nat k) <= p)%Q -> (p < inject_Z (Z.of_nat k) + 1)%Q ->
  Z.to_nat (Qfloor p) = k.
Proof.
  intros H1 H2.
  pose proof (Qfloor_resp_le _ _ H1) as Hge; rewrite Qfloor_Z in Hge.
  pose proof (Qfloor_le p) as Hle.
  assert (Hlt : (inject_Z (Qfloor p) < inject_Z (Z.of_nat k + 1))%Q)
    by (rewrite inject_Z_plus; eapply Qle_lt_trans; eauto).
  rewrite <- Zlt_Qlt in Hlt; lia.
Qed.

Lemma Qlt_bool_false (a b : Q) : (b <= a)%Q -> Qltb a b = false.
Proof.
  intros H; unfold Qltb; apply negb_false_iff, Qle_bool_iff; exact H.
Qed.

(** [rate()] on an initialised EWMA whose last boundary lies [k >= 1] full
    periods back (and less than [k+1]) commits the pending sum once and
    decays [k-1] more times:
    [(1-alpha)^(k-1) * (alpha * sample/seconds + (1-alpha) * rate)]. *)
Theorem rate_after_k_periods (now : Q) (e : EWMA) (k : nat) :
  init e = true -> (1 <= k)%nat ->
  (inject_Z (Z.of_nat k) <= pending now e)%Q ->
  (pending now e < inject_Z (Z.of_nat k) + 1)%Q ->
  (fst (ewma_rate now e) ==
     Qpow_nat (1 - alpha e) (k - 1) *
       (alpha e * (sample e / (period e / 1000)) + (1 - alpha e) * ewma e))%Q.
Proof.
  intros Hi Hk H1 H2; unfold pending in H1, H2.
  assert (Hk1 : (1 <= inject_Z (Z.of_nat k))%Q)
    by (change 1%Q with (inject_Z 1); rewrite <- Zle_Qle; lia).
  unfold ewma_rate.
  rewrite Qlt_bool_false by lra; rewrite Hi; cbn [orb negb fst].
  unfold advance; rewrite Hi; cbn [negb].
  assert (E : Qle_bool 1 ((now - ts e) / period e) = true) by (apply Qle_bool_iff; lra).
  rewrite E; unfold run_decay_loop.
  assert (Hk' : (inject_Z (Z.of_nat (k - 1)) == inject_Z (Z.of_nat k) - 1)%Q).
  { rewrite Nat2Z.inj_sub by lia; unfold Z.sub; rewrite inject_Z_plus; reflexivity. }
  rewrite (Qfloor_nat (k - 1)) by (rewrite Hk'; lra).
  destruct (decay_loop_value (k - 1) (commit e) ((now - ts e) / period e - 1)%Q)
    as (Hv & _); [rewrite Hk'; lra|].
  rewrite Hv; cbn [commit alpha ewma sample]; reflexivity.
Qed.

Lemma inject_nat_pred (k : nat) :
  (1 <= k)%nat -> (inject_Z (Z.of_nat (k - 1)) == inject_Z (Z.of_nat k) - 1)%Q.
Proof.
  intros Hk; rewrite Nat2Z.inj_sub by lia; unfold Z.sub; rewrite inject_Z_plus; reflexivity.
Qed.

(** The first [update(i)] made [k >= 1] full periods (and less than [k+1])
    after an uninitialised EWMA's start commits its accumulated sum as the
    first rate, decays it [k-1] times, initialises the EWMA and starts the
    new period's sum with [i]. *)
Theorem update_first_commit (now i : Q) (e : EWMA) (k : nat) :
  init e = false -> (1 <= k)%nat ->
  (inject_Z (Z.of_nat k) <= pending now e)%Q ->
  (pending now e < inject_Z (Z.of_nat k) + 1)%Q ->
  let e' := ewma_update now i e in
  init e' = true /\
  (ewma e' == Qpow_nat (1 - alpha e) (k - 1) * (sample e / (period e / 1000)))%Q /\
  (sample e' == i)%Q.
Proof.
  intros Hi Hk H1 H2 e'; subst e'; unfold pending in H1, H2.
  assert (Hk1 : (1 <= inject_Z (Z.of_nat k))%Q)
    by (change 1%Q with (inject_Z 1); rewrite <- Zle_Qle; lia).
  set (p := ((now - ts e) / period e)%Q) in *.
  unfold ewma_update; fold p.
  rewrite Qlt_bool_false by lra; rewrite andb_false_r.
  unfold advance; rewrite Hi; cbn [negb].
  destruct (Nat.eq_dec k 1) as [->|Hk2].
  - assert (E : Qle_bool 1 (p - 1) = false).
    { destruct (Qle_bool 1 (p - 1)) eqn:E; [|reflexivity].
      apply Qle_bool_iff in E; change (inject_Z (Z.of_nat 1)) with 1%Q in H2; lra. }
    rewrite E; unfold run_decay_loop.
    rewrite (Qfloor_nat 0) by (change (inject_Z (Z.of_nat 0)) with 0%Q;
                                change (inject_Z (Z.of_nat 1)) with 1%Q in H2; lra).
    cbn [decay_loop fst add_sample first_commit init ewma sample Qpow_nat Nat.sub].
    repeat split; ring.
  - assert (Hk2' : (2 <= k)%nat) by lia.
    assert (Hkp : (inject_Z (Z.of_nat (k - 1)) == inject_Z (Z.of_nat k) - 1)%Q)
      by (apply inject_nat_pred; lia).
    assert (Hkpp : (inject_Z (Z.of_nat (k - 1 - 1)) == inject_Z (Z.of_nat k) - 1 - 1)%Q)
      by (rewrite inject_nat_pred by lia; rewrite Hkp; reflexivity).
    assert (E : Qle_bool 1 (p - 1) = true).
    { apply Qle_bool_iff.
      assert (2 <= inject_Z (Z.of_nat k))%Q
        by (change 2%Q with (inject_Z 2); rewrite <- Zle_Qle; lia).
      lra. }
    rewrite E; unfold run_decay_loop.
    rewrite (Qfloor_nat (k - 1 - 1)) by (rewrite Hkpp; lra).
    destruct (decay_loop_value (k - 1 - 1) (commit (first_commit e)) (p - 1 - 1)%Q)
      as (Hv & Ha & Hs & Hin); [rewrite Hkpp; lra|].
    destruct (decay_loop (k - 1 - 1) (commit (first_commit e)) (p - 1 - 1)) as [e1 p1].
    cbn [fst add_sample init ewma sample] in *.
    rewrite Hin, Hs, Hv.
    cbn [commit first_commit alpha ewma sample init period].
    set (m := (k - 1 - 1)%nat) in *.
    replace (k - 1)%nat with (S m) by (subst m; lia); cbn [Qpow_nat].
    repeat split; [| ring].
    unfold Qdiv; ring.
Qed.

(** After the optional commit, the [while] loop leaves less than one
    period pending. *)
Lemma advance_tail (now : Q) (e : EWMA) (p : Q) :
  ~ (period e == 0)%Q -> (p == pending now e)%Q -> (0 <= p)%Q ->
  (pending now (let '(e1, p1) := if Qle_bool 1 p then (commit e, (p - 1)%Q) else (e, p) in
                fst (run_decay_loop e1 p1)) < 1)%Q.
Proof.
  intros Hp Hinv H0.
  destruct (Qle_bool 1 p) eqn:E.
  - apply Qle_bool_iff in E.
    assert (Hinv' : (p - 1 == pending now (commit e))%Q)
      by (apply (pending_step now e p Hp Hinv); reflexivity).
    assert (H0' : (0 <= p - 1)%Q) by lra.
    pose proof (run_decay_loop_spec now (commit e) (p - 1) Hp Hinv' H0') as Hl.
    destruct (run_decay_loop (commit e) (p - 1)) as [e' p'].
    destruct Hl as (Hlt & Heq & _); cbn [fst]; rewrite <- Heq; exact Hlt.
  - pose proof (run_decay_loop_spec now e p Hp Hinv H0) as Hl.
    destruct (run_decay_loop e p) as [e' p'].
    destruct Hl as (Hlt & Heq & _); cbn [fst]; rewrite <- Heq; exact Hlt.
Qed.

Lemma advance_commits_all (now : Q) (e : EWMA) (p : Q) :
  ~ (period e == 0)%Q -> (p == pending now e)%Q -> (1 <= p)%Q ->
  (pending now (advance e p) < 1)%Q.
Proof.
  intros Hp Hinv H1; unfold advance.
  destruct (init e); cbn [negb].
  - apply (advance_tail now e p Hp Hinv); lra.
  - assert (Hinv' : (p - 1 == pending now (first_commit e))%Q)
      by (apply (pending_step now e p Hp Hinv); reflexivity).
    apply (advance_tail now (first_commit e) (p - 1) Hp Hinv'); lra.
Qed.

(** [update(i)] commits every full period elapsed by the time of the call,
    so a [rate()] at that same instant returns the committed rate and
    changes nothing. *)
Theorem rate_after_update_is_read_only (now i : Q) (e : EWMA) :
  ~ (period e == 0)%Q ->
  let e' := ewma_update now i e in
  ewma_rate now e' = (ewma e', e').
Proof.
  intros Hp e'; subst e'.
  assert (Hpen : (pending now (ewma_update now i e) < 1)%Q).
  { unfold ewma_update.
    destruct (negb (init e) && Qltb ((now - ts e) / period e) 1) eqn:E1.
    - apply andb_true_iff in E1 as [_ E1]; apply Qltb_true in E1; exact E1.
    - destruct (Qltb ((now - ts e) / period e) 1) eqn:E2.
      + apply Qltb_true in E2; exact E2.
      + assert (H1 : (1 <= (now - ts e) / period e)%Q).
        { apply Qnot_lt_le; intros Hc; apply Qltb_true in Hc; congruence. }
        exact (advance_commits_all now e _ Hp (Qeq_refl _) H1). }
  unfold ewma_rate; unfold pending in Hpen.
  apply Qltb_true in Hpen; rewrite Hpen; reflexivity.
Qed.

(** * Witnesses of the further properties *)

Ltac close_concrete := vm_compute; first [reflexivity | discriminate | lia | tauto].

Lemma sampleMax_is_maximum_witness :
  [3; -1; 7] <> [] /\ (forall v, In v [3; -1; 7] -> MIN_SAFE_INTEGER <= v) /\
  In (sampleMax [3; -1; 7]) [3; -1; 7] /\
  (forall v, In v [3; -1; 7] -> v <= sampleMax [3; -1; 7]).
Proof.
  assert (H1 : [3; -1; 7] <> []) by discriminate.
  assert (H2 : forall v, In v [3; -1; 7] -> MIN_SAFE_INTEGER <= v)
    by (intros v [<-|[<-|[<-|[]]]]; close_concrete).
  split; [exact H1|]; split; [exact H2|].
  apply (sampleMax_is_maximum [3; -1; 7] H1 H2).
Defined.

Lemma sampleMin_is_minimum_witness :
  [3; -1; 7] <> [] /\ (forall v, In v [3; -1; 7] -> v <= MAX_SAFE_INTEGER) /\
  In (sampleMin [3; -1; 7]) [3; -1; 7] /\
  (forall v, In v [3; -1; 7] -> sampleMin [3; -1; 7] <= v).
Proof.
  assert (H1 : [3; -1; 7] <> []) by discriminate.
  assert (H2 : forall v, In v [3; -1; 7] -> v <= MAX_SAFE_INTEGER)
    by (intros v [<-|[<-|[<-|[]]]]; close_concrete).
  split; [exact H1|]; split; [exact H2|].
  apply (sampleMin_is_minimum [3; -1; 7] H1 H2).
Defined.

Definition very_negative : list Z := [MIN_SAFE_INTEGER - 5; MIN_SAFE_INTEGER - 1].

Lemma sampleMax_below_seed_witness :
  very_negative <> [] /\ (forall v, In v very_negative -> v < MIN_SAFE_INTEGER) /\
  sampleMax very_negative = MIN_SAFE_INTEGER /\ ~ In (sampleMax very_negative) very_negative.
Proof.
  assert (H1 : very_negative <> []) by discriminate.
  assert (H2 : forall v, In v very_negative -> v < MIN_SAFE_INTEGER)
    by (intros v [<-|[<-|[]]]; close_concrete).
  split; [exact H1|]; split; [exact H2|].
  apply (sampleMax_below_seed very_negative H1 H2).
Defined.

Lemma uniform_values_from_inputs_witness :
  In 7 (_values (us_updates (newUniformSample 2) inputs4)) /\ In 7 (map snd inputs4).
Proof.
  assert (H : In 7 (_values (us_updates (newUniformSample 2) inputs4))) by close_concrete.
  split; [exact H | apply (uniform_values_from_inputs 2 inputs4 7 H)].
Defined.

Lemma rate_after_k_periods_witness :
  init ewma_after_first_period = true /\ (1 <= 2)%nat /\
  (inject_Z (Z.of_nat 2) <= pending 17000 ewma_after_first_period)%Q /\
  (pending 17000 ewma_after_first_period < inject_Z (Z.of_nat 2) + 1)%Q /\
  (fst (ewma_rate 17000 ewma_after_first_period) ==
     Qpow_nat (1 - alpha ewma_after_first_period) (2 - 1) *
       (alpha ewma_after_first_period *
          (sample ewma_after_first_period / (period ewma_after_first_period / 1000)) +
        (1 - alpha ewma_after_first_period) * ewma ewma_after_first_period))%Q.
Proof.
  assert (H1 : init ewma_after_first_period = true) by reflexivity.
  assert (H2 : (1 <= 2)%nat) by lia.
  assert (H3 : (inject_Z (Z.of_nat 2) <= pending 17000 ewma_after_first_period)%Q)
    by close_concrete.
  assert (H4 : (pending 17000 ewma_after_first_period < inject_Z (Z.of_nat 2) + 1)%Q)
    by close_concrete.
  repeat (split; [assumption|]).
  apply (rate_after_k_periods 17000 ewma_after_first_period 2 H1 H2 H3 H4).
Defined.

Definition ewma_marked_once : EWMA := ewma_update 1000 3 (newStandardEWMA (2 # 25) 0).

Lemma update_first_commit_witness :
  init ewma_marked_once = false /\ (1 <= 2)%nat /\
  (inject_Z (Z.of_nat 2) <= pending 12000 ewma_marked_once)%Q /\
  (pending 12000 ewma_marked_once < inject_Z (Z.of_nat 2) + 1)%Q /\
  (let e' := ewma_update 12000 1 ewma_marked_once in
   init e' = true /\
   (ewma e' == Qpow_nat (1 - alpha ewma_marked_once) (2 - 1) *
                 (sample ewma_marked_once / (period ewma_marked_once / 1000)))%Q /\
   (sample e' == 1)%Q).
Proof.
  assert (H1 : init ewma_marked_once = false) by reflexivity.
  assert (H2 : (1 <= 2)%nat) by lia.
  assert (H3 : (inject_Z (Z.of_nat 2) <= pending 12000 ewma_marked_once)%Q)
    by close_concrete.
  assert (H4 : (pending 12000 ewma_marked_once < inject_Z (Z.of_nat 2) + 1)%Q)
    by close_concrete.
  repeat (split; [assumption|]).
  apply (update_first_commit 12000 1 ewma_marked_once 2 H1 H2 H3 H4).
Defined.

Lemma rate_after_update_is_read_only_witness :
  ~ (period ewma_marked_once == 0)%Q /\
  (let e' := ewma_update 12000 1 ewma_marked_once in
   ewma_rate 12000 e' = (ewma e', e')).
Proof.
  assert (H : ~ (period ewma_marked_once == 0)%Q) by (vm_compute; discriminate).
  split; [exact H | apply (rate_after_update_is_read_only 12000 1 ewma_marked_once H)].
Defined.
